(** * Verification of the runtime core of the dinosaurus game (src/main.js)

    Two parts of [src/main.js] are embedded here:
    - [PCSS]: the percentage-closer soft shadow GLSL chunk [_PCSS]
      (initPoissonSamples, penumbraSize, findBlocker, PCF_Filter, PCSS).
      GLSL [float] is modelled by the real numbers [R]; a shadow-map tap
      [unpackRGBAToDepth(texture2D(shadowMap, p))] is a function
      [R -> R -> R] of the sampled coordinate, and every tap is recorded in
      a small writer monad so that the taps a call performs are observable.
    - [Demo]: the class [BasicWorldDemo] as an explicit application state,
      its event handlers as state transformers and one animation frame
      ([requestAnimationFrame] callback of [RAF_]) as a function returning
      the new state and the trace of collaborator calls it makes. *)

From Stdlib Require Import Reals Lra List String Bool Arith Lia.
Import ListNotations.

Module PCSS.

Open Scope R_scope.

(** ** Constants of the shader ([#define]s of [_PCSS] and three.js's [PI2]). *)

Definition LIGHT_WORLD_SIZE : R := 0.05.
Definition LIGHT_FRUSTUM_WIDTH : R := 3.75.
Definition LIGHT_SIZE_UV : R := LIGHT_WORLD_SIZE / LIGHT_FRUSTUM_WIDTH.
Definition NEAR_PLANE : R := 1.0.
Definition NUM_SAMPLES : nat := 17.
Definition NUM_RINGS : nat := 11.
Definition BLOCKER_SEARCH_NUM_SAMPLES : nat := NUM_SAMPLES.
Definition PCF_NUM_SAMPLES : nat := NUM_SAMPLES.
Definition PI2 : R := 2 * PI.

(** ** vec2 arithmetic *)

Definition vec2 : Type := (R * R)%type.
Definition vadd (a b : vec2) : vec2 := (fst a + fst b, snd a + snd b).
Definition vscale (a : vec2) (k : R) : vec2 := (fst a * k, snd a * k).
(** [-p.yx] *)
Definition vneg_yx (p : vec2) : vec2 := (- snd p, - fst p).
Definition vlength (p : vec2) : R := sqrt (fst p * fst p + snd p * snd p).

(** ** Texture taps as a writer of sampled coordinates *)

Definition Tap (A : Type) : Type := (A * list vec2)%type.
Definition tret {A} (a : A) : Tap A := (a, []).
Definition tbind {A B} (m : Tap A) (k : A -> Tap B) : Tap B :=
  (fst (k (fst m)), snd m ++ snd (k (fst m))).
Notation "x <- m ;; k" := (tbind m (fun x => k))
  (at level 61, m at next level, right associativity).

(** [unpackRGBAToDepth(texture2D(shadowMap, p))]: the decoded depth at [p]. *)
Definition shadow_map : Type := R -> R -> R.
Definition tex (shadowMap : shadow_map) (p : vec2) : Tap R :=
  (shadowMap (fst p) (snd p), [p]).

(** ** initPoissonSamples *)

(** The [for] loop of [initPoissonSamples]: one offset per iteration, then
    [radius += radiusStep; angle += ANGLE_STEP]. *)
Fixpoint poisson_loop (n : nat) (angle radius radiusStep ANGLE_STEP : R)
  : list vec2 :=
  match n with
  | O => []
  | S n' =>
      vscale (cos angle, sin angle) (Rpower radius 0.75)
        :: poisson_loop n' (angle + ANGLE_STEP) (radius + radiusStep)
             radiusStep ANGLE_STEP
  end.

Section Shader.

(** three.js's [rand( const in vec2 uv )] (shader chunk [common]), used as
    the seed hash; it is not part of this repository, so every statement is
    made for an arbitrary [rand]. *)
Variable rand : vec2 -> R.

Definition initPoissonSamples (randomSeed : vec2) : list vec2 :=
  let ANGLE_STEP := PI2 * INR NUM_RINGS / INR NUM_SAMPLES in
  let INV_NUM_SAMPLES := 1.0 / INR NUM_SAMPLES in
  let angle := rand randomSeed * PI2 in
  let radius := INV_NUM_SAMPLES in
  let radiusStep := radius in
  poisson_loop NUM_SAMPLES angle radius radiusStep ANGLE_STEP.

(** ** penumbraSize, findBlocker, PCF_Filter, PCSS *)

Definition penumbraSize (zReceiver zBlocker : R) : R :=
  (zReceiver - zBlocker) / zBlocker.

Definition searchRadius_of (zReceiver : R) : R :=
  LIGHT_SIZE_UV * (zReceiver - NEAR_PLANE) / zReceiver.

(** The loop of [findBlocker] over [poissonDisk], threading
    [(blockerDepthSum, numBlockers)]. *)
Fixpoint blocker_loop (shadowMap : shadow_map) (uv : vec2)
    (zReceiver searchRadius : R) (disk : list vec2)
    (blockerDepthSum : R) (numBlockers : nat) : Tap (R * nat) :=
  match disk with
  | [] => tret (blockerDepthSum, numBlockers)
  | d :: ds =>
      shadowMapDepth <- tex shadowMap (vadd uv (vscale d searchRadius)) ;;
      if Rlt_dec shadowMapDepth zReceiver
      then blocker_loop shadowMap uv zReceiver searchRadius ds
             (blockerDepthSum + shadowMapDepth) (S numBlockers)
      else blocker_loop shadowMap uv zReceiver searchRadius ds
             blockerDepthSum numBlockers
  end.

Definition findBlocker (shadowMap : shadow_map) (poissonDisk : list vec2)
    (uv : vec2) (zReceiver : R) : Tap R :=
  let searchRadius := searchRadius_of zReceiver in
  r <- blocker_loop shadowMap uv zReceiver searchRadius poissonDisk 0 0 ;;
  let (blockerDepthSum, numBlockers) := r in
  if Nat.eqb numBlockers 0 then tret (-1.0)
  else tret (blockerDepthSum / INR numBlockers).

(** One loop of [PCF_Filter]: [offset] is the identity for the first loop
    and [vneg_yx] for the second. *)
Fixpoint pcf_loop (shadowMap : shadow_map) (uv : vec2) (zReceiver filterRadius : R)
    (offset : vec2 -> vec2) (disk : list vec2) (sum : R) : Tap R :=
  match disk with
  | [] => tret sum
  | d :: ds =>
      depth <- tex shadowMap (vadd uv (vscale (offset d) filterRadius)) ;;
      pcf_loop shadowMap uv zReceiver filterRadius offset ds
        (if Rle_dec zReceiver depth then sum + 1.0 else sum)
  end.

Definition PCF_Filter (shadowMap : shadow_map) (poissonDisk : list vec2)
    (uv : vec2) (zReceiver filterRadius : R) : Tap R :=
  s1 <- pcf_loop shadowMap uv zReceiver filterRadius (fun d => d) poissonDisk 0.0 ;;
  s2 <- pcf_loop shadowMap uv zReceiver filterRadius vneg_yx poissonDisk s1 ;;
  tret (s2 / (2.0 * INR PCF_NUM_SAMPLES)).

(** Lines 104-105 of [PCSS]. *)
Definition filterRadius_of (zReceiver avgBlockerDepth : R) : R :=
  let penumbraRatio := penumbraSize zReceiver avgBlockerDepth in
  penumbraRatio * LIGHT_SIZE_UV * NEAR_PLANE / zReceiver.

(** [coords] is the vec4 [shadowCoord]; [w] is unused. *)
Definition PCSS (shadowMap : shadow_map) (coords : R * R * R * R) : Tap R :=
  let '(x, y, z, _) := coords in
  let uv := (x, y) in
  let zReceiver := z in
  let poissonDisk := initPoissonSamples uv in
  avgBlockerDepth <- findBlocker shadowMap poissonDisk uv zReceiver ;;
  if Req_dec_T avgBlockerDepth (-1.0) then tret 1.0
  else PCF_Filter shadowMap poissonDisk uv zReceiver
         (filterRadius_of zReceiver avgBlockerDepth).

End Shader.

(** three.js r124's [rand]: [fract(sin(mod(dot(uv, vec2(a,b)), PI)) * c)]. *)
Definition glsl_mod (x y : R) : R := x - y * IZR (Int_part (x / y)).
Definition rand_three (uv : vec2) : R :=
  let dt := fst uv * 12.9898 + snd uv * 78.233 in
  let sn := glsl_mod dt PI in
  frac_part (sin sn * 43758.5453).

(** The taps of the blocker search of [PCSS] at [(u, v, z)]. *)
Definition blocker_taps (rand : vec2 -> R) (u v z : R) : list vec2 :=
  map (fun d => vadd (u, v) (vscale d (searchRadius_of z)))
    (initPoissonSamples rand (u, v)).

(** A blocker-search tap of [d] is below [zReceiver]. *)
Definition is_blocker (sm : shadow_map) (uv : vec2) (z sr : R) (d : vec2) : Prop :=
  sm (fst (vadd uv (vscale d sr))) (snd (vadd uv (vscale d sr))) < z.

End PCSS.

(** * The class [BasicWorldDemo] *)

Module Demo.

Open Scope R_scope.

(** Objects added to [scene_]; [PlayerMesh] remembers the [character] the
    player was built with ([undefined] is [None]). *)
Inductive actor_kind : Type :=
| DirectionalLight
| HemisphereLight
| Ground
| Sky
| WorldMesh
| PlayerMesh (character : option string)
| BackgroundMesh.

(** An object has an identity ([actor_id]), as JavaScript objects do. *)
Record actor : Type := mkActor { actor_id : nat; kind : actor_kind }.

(** The fields of a [BasicWorldDemo] instance.  [world_], [player_] and
    [background_] are handles on the collaborators, identified by the object
    each put in the scene.  [next_id] hands out fresh identities and
    [undisposed] lists the objects whose geometry and material have not been
    released with [dispose()].  The renderer and the camera never change in
    the modelled code and are left out. *)
Record app : Type := mkApp {
  scene_ : list actor;
  world_ : option nat;
  player_ : option nat;
  background_ : option nat;
  gameStarted : bool;
  gameOver : bool;
  currentCharacter : option string;
  previousRAF_ : option R;
  next_id : nat;
  undisposed : list nat
}.

Definition set_scene (sc : list actor) (s : app) : app :=
  mkApp sc (world_ s) (player_ s) (background_ s) (gameStarted s) (gameOver s)
    (currentCharacter s) (previousRAF_ s) (next_id s) (undisposed s).
Definition set_world (w : option nat) (s : app) : app :=
  mkApp (scene_ s) w (player_ s) (background_ s) (gameStarted s) (gameOver s)
    (currentCharacter s) (previousRAF_ s) (next_id s) (undisposed s).
Definition set_player (p : option nat) (s : app) : app :=
  mkApp (scene_ s) (world_ s) p (background_ s) (gameStarted s) (gameOver s)
    (currentCharacter s) (previousRAF_ s) (next_id s) (undisposed s).
Definition set_background (b : option nat) (s : app) : app :=
  mkApp (scene_ s) (world_ s) (player_ s) b (gameStarted s) (gameOver s)
    (currentCharacter s) (previousRAF_ s) (next_id s) (undisposed s).
Definition set_gameStarted (v : bool) (s : app) : app :=
  mkApp (scene_ s) (world_ s) (player_ s) (background_ s) v (gameOver s)
    (currentCharacter s) (previousRAF_ s) (next_id s) (undisposed s).
Definition set_gameOver (v : bool) (s : app) : app :=
  mkApp (scene_ s) (world_ s) (player_ s) (background_ s) (gameStarted s) v
    (currentCharacter s) (previousRAF_ s) (next_id s) (undisposed s).
Definition set_currentCharacter (c : option string) (s : app) : app :=
  mkApp (scene_ s) (world_ s) (player_ s) (background_ s) (gameStarted s)
    (gameOver s) c (previousRAF_ s) (next_id s) (undisposed s).
Definition set_previousRAF (t : option R) (s : app) : app :=
  mkApp (scene_ s) (world_ s) (player_ s) (background_ s) (gameStarted s)
    (gameOver s) (currentCharacter s) t (next_id s) (undisposed s).

(** Observable effects: scheduling, collaborator calls, rendering and the
    DOM changes of the menus. *)
Inductive event : Type :=
| RequestAnimationFrame
| PlayerUpdate (timeElapsed : R)
| WorldUpdate (timeElapsed : R)
| BackgroundUpdate (timeElapsed : R)
| Render (scene : list actor)
| HideGameMenu
| ShowGameOver
| HideGameOver.

(** ** A state and trace monad for methods of [this] *)

Definition M (A : Type) : Type := app -> A * app * list event.
Definition ret {A} (a : A) : M A := fun s => (a, s, []).
Definition bind {A B} (m : M A) (k : A -> M B) : M B :=
  fun s => let '(a, s1, e1) := m s in let '(b, s2, e2) := k a s1 in (b, s2, e1 ++ e2).
Definition get : M app := fun s => (s, s, []).
Definition modify (f : app -> app) : M unit := fun s => (tt, f s, []).
Definition emit (e : event) : M unit := fun s => (tt, s, [e]).
Notation "x <- m ;; k" := (bind m (fun x => k))
  (at level 61, m at next level, right associativity).
Notation "m ;; k" := (bind m (fun _ => k)) (at level 61, right associativity).

(** [this.scene_.add(obj)] for a new object: a fresh identity, appended to
    the children, its resources not disposed. *)
Definition add_actor (k : actor_kind) : M nat :=
  fun s =>
    let id := next_id s in
    (id,
     mkApp (scene_ s ++ [mkActor id k]) (world_ s) (player_ s) (background_ s)
       (gameStarted s) (gameOver s) (currentCharacter s) (previousRAF_ s)
       (S id) (id :: undisposed s),
     []).

(** [this.scene_.remove(obj)] *)
Definition remove_actor (id : nat) : M unit :=
  modify (fun s => set_scene (filter (fun a => negb (Nat.eqb (actor_id a) id)) (scene_ s)) s).

(** [this.scene_.clear()]: removes every child, disposes nothing. *)
Definition clear_scene : M unit := modify (set_scene []).

(** Modelled from the spec: the constructors [world.WorldManager],
    [player.Player] and [background.Background] (world.js, player.js and
    background.js), each of which puts its own actor into the scene it is
    given. *)
Definition new_WorldManager : M nat := add_actor WorldMesh.
Definition new_Player (character : option string) : M nat := add_actor (PlayerMesh character).
Definition new_Background : M nat := add_actor BackgroundMesh.

(** ** Methods *)

Definition _InitializeScene : M unit :=
  _ <- add_actor DirectionalLight ;;
  _ <- add_actor HemisphereLight ;;
  _ <- add_actor Ground ;;
  _ <- add_actor Sky ;;
  w <- new_WorldManager ;;
  modify (set_world (Some w)) ;;
  s <- get ;;
  p <- new_Player (currentCharacter s) ;;
  modify (set_player (Some p)) ;;
  b <- new_Background ;;
  modify (set_background (Some b)).

Definition _ResetPlayer : M unit :=
  s <- get ;;
  (match player_ s with Some p => remove_actor p | None => ret tt end) ;;
  s <- get ;;
  p <- new_Player (currentCharacter s) ;;
  modify (set_player (Some p)).

Definition _ResetGame : M unit :=
  clear_scene ;;
  _InitializeScene ;;
  modify (set_gameOver false).

(** [dropdownValue] is [document.getElementById("character-select").value]. *)
Definition _OnStart (dropdownValue : string) : M unit :=
  modify (set_currentCharacter (Some dropdownValue)) ;;
  _ResetPlayer ;;
  emit HideGameMenu ;;
  modify (set_gameStarted true).

Definition _OnCharacterSelect (value : string) : M unit :=
  modify (set_currentCharacter (Some value)).

Definition _OnReplay (dropdownValue : string) : M unit :=
  modify (set_currentCharacter (Some dropdownValue)) ;;
  emit HideGameOver ;;
  _ResetGame ;;
  modify (set_gameStarted true).

(** [Step_]; [playerGameOver] is [this.player_.gameOver] as the player
    collaborator reports it after its [Update]. *)
Definition Step_ (timeElapsed : R) (playerGameOver : bool) : M unit :=
  s <- get ;;
  if negb (gameStarted s) || gameOver s then ret tt
  else
    emit (PlayerUpdate timeElapsed) ;;
    emit (WorldUpdate timeElapsed) ;;
    emit (BackgroundUpdate timeElapsed) ;;
    s <- get ;;
    if playerGameOver && negb (gameOver s)
    then modify (set_gameOver true) ;; emit ShowGameOver
    else ret tt.

(** The callback that [RAF_] hands to [requestAnimationFrame], run at
    timestamp [t]; its first statement after the null check, [this.RAF_()],
    schedules the next frame. *)
Definition RAF_callback (t : R) (playerGameOver : bool) : M unit :=
  s <- get ;;
  (match previousRAF_ s with
   | None => modify (set_previousRAF (Some t))
   | Some _ => ret tt
   end) ;;
  emit RequestAnimationFrame ;;
  s <- get ;;
  let prev := match previousRAF_ s with Some p => p | None => t end in
  Step_ ((t - prev) / 1000.0) playerGameOver ;;
  s <- get ;;
  emit (Render (scene_ s)) ;;
  modify (set_previousRAF (Some t)).

(** [_Initialize] (renderer and camera set-up omitted) *)
Definition _Initialize : M unit :=
  modify (set_scene []) ;;
  _InitializeScene ;;
  modify (set_previousRAF None) ;;
  emit RequestAnimationFrame.

(** The constructor: [_Initialize] runs before the flags and the character
    are assigned. *)
Definition constructor : M unit :=
  _Initialize ;;
  modify (set_gameStarted false) ;;
  modify (set_gameOver false) ;;
  modify (set_currentCharacter (Some "Velociraptor"%string)).

(** The object before the constructor body runs. *)
Definition blank : app := mkApp [] None None None false false None None 0 [].

Definition run {A} (m : M A) (s : app) : app := snd (fst (m s)).
Definition trace {A} (m : M A) (s : app) : list event := snd (m s).

(** The app after [new BasicWorldDemo()]. *)
Definition app_init : app := run constructor blank.

(** Everything that can happen to the app after construction. *)
Inductive input : Type :=
| ClickPlay (dropdownValue : string)
| ClickReplay (dropdownValue : string)
| SelectCharacter (value : string)
| AnimationFrame (t : R) (playerGameOver : bool).

Definition handle (i : input) : M unit :=
  match i with
  | ClickPlay v => _OnStart v
  | ClickReplay v => _OnReplay v
  | SelectCharacter v => _OnCharacterSelect v
  | AnimationFrame t g => RAF_callback t g
  end.

Inductive reachable : app -> Prop :=
| reachable_init : reachable app_init
| reachable_step s i : reachable s -> reachable (run (handle i) s).

(** The session state the two flags encode. *)
Inductive session_state : Type := Idle | Playing | GameOver.

Definition state_of (s : app) : session_state :=
  if gameStarted s then (if gameOver s then GameOver else Playing) else Idle.

Definition kinds (sc : list actor) : list actor_kind := map kind sc.

Definition is_update (e : event) : bool :=
  match e with
  | PlayerUpdate _ | WorldUpdate _ | BackgroundUpdate _ => true
  | _ => false
  end.

Definition is_render (e : event) : bool :=
  match e with Render _ => true | _ => false end.

(** The delta [Step_] receives on a frame at [t]. *)
Definition frame_delta (s : app) (t : R) : R :=
  (t - match previousRAF_ s with Some p => p | None => t end) / 1000.0.

(** The calls [Step_] makes in state [s]. *)
Definition step_calls (s : app) (dt : R) (g : bool) : list event :=
  match state_of s with
  | Playing => [PlayerUpdate dt; WorldUpdate dt; BackgroundUpdate dt]
                ++ (if g then [ShowGameOver] else [])
  | _ => []
  end.

(** The objects [_InitializeScene] creates when [next_id] is [n] and the
    character is [c]. *)
Definition baseline_scene (n : nat) (c : option string) : list actor :=
  [mkActor n DirectionalLight; mkActor (1 + n) HemisphereLight;
   mkActor (2 + n) Ground; mkActor (3 + n) Sky; mkActor (4 + n) WorldMesh;
   mkActor (5 + n) (PlayerMesh c); mkActor (6 + n) BackgroundMesh].

Definition is_player_actor (a : actor) : bool :=
  match kind a with PlayerMesh _ => true | _ => false end.

(** A sample session: Play clicked before the first frame, a first frame at
    0 ms, then a frame at 16 ms where the player reports game over. *)
Definition session_playing : app := run (_OnStart "Velociraptor"%string) app_init.
Definition session_over : app :=
  run (RAF_callback 16 true) (run (RAF_callback 0 false) session_playing).

Definition baseline_kinds (c : option string) : list actor_kind :=
  [DirectionalLight; HemisphereLight; Ground; Sky; WorldMesh; PlayerMesh c;
   BackgroundMesh].

(** The order of the scene after Play: the player mesh is removed and a new
    one appended. *)
Definition start_kinds (c : option string) : list actor_kind :=
  [DirectionalLight; HemisphereLight; Ground; Sky; WorldMesh; BackgroundMesh;
   PlayerMesh c].

(** The scene of a reachable app: seven objects with distinct identities
    below [next_id], the player mesh being [player_], either in its
    construction slot or last. *)
Definition scene_shape (s : app) : Prop :=
  exists p c n0 n1 n2 n3 n4 n6,
    player_ s = Some p /\
    NoDup [n0; n1; n2; n3; n4; p; n6] /\
    Forall (fun i => (i < next_id s)%nat) [n0; n1; n2; n3; n4; p; n6] /\
    (scene_ s = [mkActor n0 DirectionalLight; mkActor n1 HemisphereLight;
                 mkActor n2 Ground; mkActor n3 Sky; mkActor n4 WorldMesh;
                 mkActor p (PlayerMesh c); mkActor n6 BackgroundMesh] \/
     scene_ s = [mkActor n0 DirectionalLight; mkActor n1 HemisphereLight;
                 mkActor n2 Ground; mkActor n3 Sky; mkActor n4 WorldMesh;
                 mkActor n6 BackgroundMesh; mkActor p (PlayerMesh c)]).

End Demo.

(** * Properties of the PCSS shader *)

Module PCSSFacts.
Import PCSS.
Open Scope R_scope.

Lemma blocker_loop_no_blocker sm uv z sr disk s n :
  (forall d, In d disk -> ~ sm (fst (vadd uv (vscale d sr))) (snd (vadd uv (vscale d sr))) < z) ->
  blocker_loop sm uv z sr disk s n = ((s, n), map (fun d => vadd uv (vscale d sr)) disk).
Proof.
  revert s n; induction disk as [|d ds IH]; intros s n Hall; [reflexivity|].
  simpl blocker_loop. unfold tbind, tex; simpl fst; simpl snd.
  destruct (Rlt_dec _ z) as [Hlt|_].
  - exfalso. exact (Hall d (or_introl eq_refl) Hlt).
  - rewrite IH by (intros d' Hd'; apply Hall; right; exact Hd'). reflexivity.
Qed.

Lemma blocker_loop_uniform c uv z sr disk s n :
  c < z ->
  fst (blocker_loop (fun _ _ => c) uv z sr disk s n)
  = (s + INR (List.length disk) * c, (n + List.length disk)%nat).
Proof.
  intros Hc. revert s n; induction disk as [|d ds IH]; intros s n.
  - simpl. f_equal; [ring | lia].
  - simpl blocker_loop. unfold tbind, tex; simpl fst.
    destruct (Rlt_dec c z) as [_|Hn]; [|lra].
    rewrite IH. simpl List.length. rewrite S_INR. f_equal; [ring | lia].
Qed.

Lemma pcf_loop_uniform_below c uv z fr off disk s :
  c < z -> fst (pcf_loop (fun _ _ => c) uv z fr off disk s) = s.
Proof.
  intros Hc. revert s; induction disk as [|d ds IH]; intros s; [reflexivity|].
  simpl pcf_loop. unfold tbind, tex; simpl fst.
  rewrite IH. destruct (Rle_dec z c); [lra | reflexivity].
Qed.

Lemma poisson_loop_length n a r rs st : List.length (poisson_loop n a r rs st) = n.
Proof. revert a r; induction n; intros a r; simpl; [reflexivity | rewrite IHn; reflexivity]. Qed.

Lemma initPoissonSamples_length rand seed :
  List.length (initPoissonSamples rand seed) = NUM_SAMPLES.
Proof. apply poisson_loop_length. Qed.


Lemma findBlocker_uniform_blocked rand c u v z :
  0 < c < z ->
  fst (findBlocker (fun _ _ => c) (initPoissonSamples rand (u, v)) (u, v) z) = c.
Proof.
  intros [Hc Hz]. unfold findBlocker, tbind. 
  remember (initPoissonSamples rand (u, v)) as disk eqn:Hd.
  cbn [fst].
  rewrite blocker_loop_uniform by lra.
  rewrite Hd, initPoissonSamples_length. unfold NUM_SAMPLES. rewrite Nat.add_0_l.
  cbn [Nat.eqb tret fst]. field. apply not_0_INR. lia.
Qed.

Lemma PCSS_uniform_blocked rand c u v z w :
  0 < c < z -> fst (PCSS rand (fun _ _ => c) (u, v, z, w)) = 0.
Proof.
  intros Hcz. unfold PCSS. unfold tbind at 1. cbn [fst].
  rewrite findBlocker_uniform_blocked by exact Hcz.
  destruct (Req_dec_T c (-1.0)) as [E|_]; [lra|].
  unfold PCF_Filter, tbind. cbn [fst].
  rewrite !pcf_loop_uniform_below by lra.
  cbn [tret fst]. replace 0.0 with 0 by lra. unfold Rdiv. ring.
Qed.

Lemma PCSS_no_blocker rand sm u v z w :
  (forall d, In d (initPoissonSamples rand (u, v)) ->
     ~ sm (fst (vadd (u, v) (vscale d (searchRadius_of z))))
          (snd (vadd (u, v) (vscale d (searchRadius_of z)))) < z) ->
  PCSS rand sm (u, v, z, w) = (1, blocker_taps rand u v z).
Proof.
  intros Hall. unfold PCSS, findBlocker, tbind, blocker_taps.
  rewrite blocker_loop_no_blocker by exact Hall. cbn [fst snd Nat.eqb tret].
  destruct (Req_dec_T (-1.0) (-1.0)) as [_|N]; [|lra].
  cbn [fst snd tret]. rewrite !app_nil_r. f_equal. lra.
Qed.
Lemma LIGHT_SIZE_UV_pos : 0 < LIGHT_SIZE_UV.
Proof. unfold LIGHT_SIZE_UV, LIGHT_WORLD_SIZE, LIGHT_FRUSTUM_WIDTH. lra. Qed.

Lemma searchRadius_nonpos z : 0 < z <= NEAR_PLANE -> searchRadius_of z <= 0.
Proof.
  intros [Hz Hn]. unfold NEAR_PLANE in Hn. unfold searchRadius_of, NEAR_PLANE.
  pose proof LIGHT_SIZE_UV_pos. assert (0 < / z) by (apply Rinv_0_lt_compat; lra).
  unfold Rdiv. assert (LIGHT_SIZE_UV * (z - 1.0) <= 0) by nra. nra.
Qed.

Lemma Rpower_unit r y : 0 < r <= 1 -> 0 <= y -> 0 <= Rpower r y <= 1.
Proof.
  intros [Hr Hr1] Hy. unfold Rpower. split; [left; apply exp_pos|].
  assert (Hln : ln r <= 0).
  { destruct (Rle_lt_or_eq_dec r 1 Hr1) as [Hlt| ->].
    - rewrite <- ln_1. left. apply ln_increasing; lra.
    - rewrite ln_1. lra. }
  rewrite <- exp_0. assert (y * ln r <= 0) by nra.
  destruct (Rle_lt_or_eq_dec _ _ H) as [Hlt| ->]; [left; apply exp_increasing; exact Hlt | lra].
Qed.

Lemma offset_unit a p : 0 <= p <= 1 -> vlength (vscale (cos a, sin a) p) <= 1.
Proof.
  intros Hp. unfold vlength, vscale. cbn [fst snd]. rewrite <- sqrt_1.
  apply sqrt_le_1_alt.
  replace (cos a * p * (cos a * p) + sin a * p * (sin a * p))
    with (p * p * (Rsqr (sin a) + Rsqr (cos a))) by (unfold Rsqr; ring).
  rewrite sin2_cos2. nra.
Qed.

Lemma poisson_loop_unit n a r rs st :
  0 < rs -> 0 < r -> r + INR n * rs <= 1 + rs ->
  Forall (fun p => vlength p <= 1) (poisson_loop n a r rs st).
Proof.
  revert a r; induction n as [|n IH]; intros a r Hrs Hr Hb; cbn [poisson_loop]; constructor.
  - apply offset_unit, Rpower_unit; [|lra]. rewrite S_INR in Hb.
    pose proof (pos_INR n). split; nra.
  - apply IH; [exact Hrs | lra |]. rewrite S_INR in Hb. lra.
Qed.

Lemma pcf_loop_bounds sm uv z fr off disk s :
  s <= fst (pcf_loop sm uv z fr off disk s) <= s + INR (List.length disk).
Proof.
  revert s; induction disk as [|d ds IH]; intros s.
  - cbn. lra.
  - cbn [pcf_loop]. unfold tbind, tex. cbn [fst List.length]. rewrite S_INR.
    destruct (Rle_dec z _).
    + specialize (IH (s + 1.0)). lra.
    + specialize (IH s). pose proof (pos_INR (List.length ds)). lra.
Qed.

Lemma pcf_loop_taps sm uv z fr off disk s :
  List.length (snd (pcf_loop sm uv z fr off disk s)) = List.length disk.
Proof.
  revert s; induction disk as [|d ds IH]; intros s; [reflexivity|].
  cbn [pcf_loop]. unfold tbind, tex. cbn [snd List.length app]. rewrite IH. reflexivity.
Qed.

Lemma blocker_loop_taps sm uv z sr disk s n :
  List.length (snd (blocker_loop sm uv z sr disk s n)) = List.length disk.
Proof.
  revert s n; induction disk as [|d ds IH]; intros s n; [reflexivity|].
  cbn [blocker_loop]. unfold tbind, tex. cbn [snd List.length app fst].
  destruct (Rlt_dec _ z); rewrite IH; reflexivity.
Qed.

Lemma blocker_loop_acc sm uv z sr disk :
  (forall x y, 0 <= sm x y) ->
  forall s n,
  let r := fst (blocker_loop sm uv z sr disk s n) in
  (n <= snd r)%nat /\ s <= fst r /\
  (snd r = n -> fst r = s /\ forall d, In d disk -> ~ is_blocker sm uv z sr d) /\
  ((n < snd r)%nat -> fst r - s < (INR (snd r) - INR n) * z /\
                      exists d, In d disk /\ is_blocker sm uv z sr d).
Proof.
  intros Hpos. induction disk as [|d ds IH]; intros s n.
  - cbn. split; [lia|]. split; [lra|]. split; [intros _; split; [reflexivity | intros d []]|].
    intros H; lia.
  - cbn [blocker_loop]. unfold tbind, tex. cbn [fst].
    destruct (Rlt_dec _ z) as [Hb|Hnb].
    + destruct (IH (s + sm (fst (vadd uv (vscale d sr))) (snd (vadd uv (vscale d sr)))) (S n))
        as (H1 & H2 & H3 & H4).
      set (c := sm (fst (vadd uv (vscale d sr))) (snd (vadd uv (vscale d sr)))) in *.
      set (r := fst (blocker_loop sm uv z sr ds (s + c) (S n))) in *.
      pose proof (Hpos (fst (vadd uv (vscale d sr))) (snd (vadd uv (vscale d sr)))) as Hc.
      fold c in Hc.
      split; [lia|]. split; [lra|]. split; [intros E; lia|].
      intros _. split.
      * destruct (Nat.eq_dec (snd r) (S n)) as [E|E].
        -- destruct (H3 E) as [E' _]. rewrite E', E, S_INR. lra.
        -- destruct H4 as [H4 _]; [lia|]. rewrite S_INR in H4. lra.
      * exists d. split; [left; reflexivity | exact Hb].
    + destruct (IH s n) as (H1 & H2 & H3 & H4).
      split; [exact H1|]. split; [exact H2|]. split.
      * intros E. destruct (H3 E) as [E' Hall]. split; [exact E'|].
        intros d' [<-|Hd']; [exact Hnb | exact (Hall d' Hd')].
      * intros Hlt. destruct (H4 Hlt) as [Hs [d' [Hd' Hb']]].
        split; [exact Hs|]. exists d'. split; [right; exact Hd' | exact Hb'].
Qed.

Lemma findBlocker_cases sm disk uv z :
  (forall x y, 0 <= sm x y) ->
  (fst (findBlocker sm disk uv z) = -1.0 /\
   forall d, In d disk -> ~ is_blocker sm uv z (searchRadius_of z) d) \/
  (0 <= fst (findBlocker sm disk uv z) < z /\
   exists d, In d disk /\ is_blocker sm uv z (searchRadius_of z) d).
Proof.
  intros Hpos. unfold findBlocker, tbind. cbn [fst].
  destruct (blocker_loop_acc sm uv z (searchRadius_of z) disk Hpos 0 0) as (H1 & H2 & H3 & H4).
  destruct (fst (blocker_loop sm uv z (searchRadius_of z) disk 0 0)) as [sum n] eqn:E.
  cbn [fst snd] in *.
  destruct n as [|n'].
  - left. destruct (H3 eq_refl) as [_ Hall]. split; [reflexivity | exact Hall].
  - right. destruct H4 as [Hlt [d Hd]]; [lia|].
    cbn [Nat.eqb tret fst]. split; [|exists d; exact Hd].
    pose proof (lt_0_INR (S n') ltac:(lia)) as Hn.
    rewrite Rminus_0_r in Hlt. replace (INR 0) with 0 in Hlt by reflexivity.
    split.
    + apply Rmult_le_pos; [lra | left; apply Rinv_0_lt_compat; exact Hn].
    + apply (Rmult_lt_reg_r (INR (S n'))); [exact Hn|].
      unfold Rdiv. rewrite Rmult_assoc, Rinv_l by lra. lra.
Qed.

(** ** Claims about the PCSS shader *)

(** C2 (counterexample): with [zReceiver = 0.5 <= NEAR_PLANE] (search
    radius [<= 0]) and a shadow map of uniform depth [0.25], [PCSS] does
    not return [1.0]: it finds blockers and returns [0]. *)
Lemma PCSS_near_plane_not_lit :
  / 2 <= NEAR_PLANE /\ searchRadius_of (/ 2) <= 0 /\
  fst (PCSS rand_three (fun _ _ => / 4) (0, 0, / 2, 0)) = 0.
Proof.
  split; [unfold NEAR_PLANE; lra|]. split.
  - apply searchRadius_nonpos. unfold NEAR_PLANE. lra.
  - apply PCSS_uniform_blocked. lra.
Qed.

(** C2 (amended): [PCSS] has no guard on [zReceiver] and no check for
    degenerate values.  When [0 < zReceiver <= NEAR_PLANE] the search radius
    is [<= 0], yet for every shadow map of non-negative depths in which the
    blocker search finds a blocker, [PCSS] does not return [1.0] by default:
    it returns the PCF ratio computed with the average blocker depth, which
    lies in [0, zReceiver).  For example, a shadow map of uniform depth [c]
    with [0 < c < zReceiver] gives [0] (fully shadowed). *)
Theorem PCSS_no_near_plane_guard (rand : vec2 -> R) (sm : shadow_map) (c u v z w : R) :
  0 < z -> z <= NEAR_PLANE ->
  searchRadius_of z <= 0 /\
  ((forall x y, 0 <= sm x y) ->
   (exists d, In d (initPoissonSamples rand (u, v)) /\
              is_blocker sm (u, v) z (searchRadius_of z) d) ->
   0 <= fst (findBlocker sm (initPoissonSamples rand (u, v)) (u, v) z) < z /\
   fst (PCSS rand sm (u, v, z, w))
   = fst (PCF_Filter sm (initPoissonSamples rand (u, v)) (u, v) z
            (filterRadius_of z (fst (findBlocker sm (initPoissonSamples rand (u, v)) (u, v) z))))) /\
  (0 < c < z -> fst (PCSS rand (fun _ _ => c) (u, v, z, w)) = 0).
Proof.
  intros Hz Hzn. split; [apply searchRadius_nonpos; lra|]. split.
  - intros Hpos [d [Hd Hb]].
    destruct (findBlocker_cases sm (initPoissonSamples rand (u, v)) (u, v) z Hpos)
      as [[_ Hall] | [Hr _]]; [exfalso; exact (Hall d Hd Hb)|].
    split; [exact Hr|].
    unfold PCSS, tbind. cbn [fst].
    destruct (Req_dec_T _ (-1.0)) as [E|_]; [lra | reflexivity].
  - intros Hcz. apply PCSS_uniform_blocked. exact Hcz.
Qed.

Lemma PCSS_no_near_plane_guard_witness :
  (0 < / 2 /\ / 2 <= NEAR_PLANE) /\
  fst (PCSS rand_three (fun _ _ => / 4) (0, 0, / 2, 0))
  = fst (PCF_Filter (fun _ _ => / 4) (initPoissonSamples rand_three (0, 0)) (0, 0) (/ 2)
           (filterRadius_of (/ 2)
              (fst (findBlocker (fun _ _ => / 4) (initPoissonSamples rand_three (0, 0))
                      (0, 0) (/ 2))))) /\
  fst (PCSS rand_three (fun _ _ => / 4) (0, 0, / 2, 0)) = 0.
Proof.
  assert (H1 : 0 < / 2) by lra.
  assert (H2 : / 2 <= NEAR_PLANE) by (unfold NEAR_PLANE; lra).
  assert (Hpos : forall x y : R, 0 <= (fun _ _ : R => / 4) x y) by (intros; lra).
  assert (Hc : 0 < / 4 < / 2) by lra.
  assert (Hex : exists d, In d (initPoissonSamples rand_three (0, 0)) /\
                  is_blocker (fun _ _ => / 4) (0, 0) (/ 2) (searchRadius_of (/ 2)) d).
  { pose proof (initPoissonSamples_length rand_three (0, 0)) as Hl.
    destruct (initPoissonSamples rand_three (0, 0)) as [|d ds];
      [unfold NUM_SAMPLES in Hl; discriminate|].
    exists d. split; [left; reflexivity|]. unfold is_blocker. lra. }
  destruct (PCSS_no_near_plane_guard rand_three (fun _ _ => / 4) (/ 4) 0 0 (/ 2) 0 H1 H2)
    as (_ & Hg & Hu).
  split; [split; assumption|]. split.
  - exact (proj2 (Hg Hpos Hex)).
  - exact (Hu Hc).
Defined.

(** C6: when no tap of the blocker search is below [zReceiver], [PCSS]
    returns [1.0] having sampled only the blocker-search taps (no PCF
    pass); in particular a shadow map of uniform depth [1.0] with
    [zReceiver = 0.5] gives [1.0] at every [(u, v)]. *)
Theorem PCSS_no_occluder_early_out rand sm u v z w :
  (forall d, In d (initPoissonSamples rand (u, v)) ->
     ~ sm (fst (vadd (u, v) (vscale d (searchRadius_of z))))
          (snd (vadd (u, v) (vscale d (searchRadius_of z)))) < z) ->
  PCSS rand sm (u, v, z, w) = (1, blocker_taps rand u v z) /\
  (forall u' v' w',
     PCSS rand (fun _ _ => 1) (u', v', 0.5, w') = (1, blocker_taps rand u' v' 0.5)).
Proof.
  intros Hall. split.
  - apply PCSS_no_blocker. exact Hall.
  - intros u' v' w'. apply PCSS_no_blocker. intros d _. lra.
Qed.

Lemma PCSS_no_occluder_early_out_witness :
  PCSS rand_three (fun _ _ => 1) (0, 0, 0.5, 0) = (1, blocker_taps rand_three 0 0 0.5).
Proof.
  assert (H : forall d, In d (initPoissonSamples rand_three (0, 0)) ->
     ~ (fun _ _ : R => 1) (fst (vadd (0, 0) (vscale d (searchRadius_of 0.5))))
          (snd (vadd (0, 0) (vscale d (searchRadius_of 0.5)))) < 0.5)
    by (intros d _; lra).
  exact (proj1 (PCSS_no_occluder_early_out rand_three (fun _ _ => 1) 0 0 0.5 0 H)).
Defined.

(** C7: for a fixed [zReceiver > 0], a smaller positive average blocker
    depth never gives a smaller filter radius. *)
Theorem filterRadius_antitone z b1 b2 :
  0 < z -> 0 < b2 -> b2 <= b1 -> filterRadius_of z b1 <= filterRadius_of z b2.
Proof.
  intros Hz Hb2 Hb. pose proof LIGHT_SIZE_UV_pos as HL.
  assert (E : forall b, 0 < b -> filterRadius_of z b = LIGHT_SIZE_UV * (/ b - / z)).
  { intros b Hb'. unfold filterRadius_of, penumbraSize, NEAR_PLANE.
    replace 1.0 with 1 by lra. field. lra. }
  rewrite (E b1) by lra. rewrite (E b2) by lra.
  apply Rmult_le_compat_l; [lra|].
  assert (/ b1 <= / b2) by (apply Rinv_le_contravar; lra). lra.
Qed.

Lemma filterRadius_antitone_witness :
  filterRadius_of 1 (/ 2) <= filterRadius_of 1 (/ 4).
Proof. apply filterRadius_antitone; lra. Defined.

(** C9: [initPoissonSamples] yields exactly [NUM_SAMPLES = 17] offsets, each
    of length at most 1, and the sequence depends on the seed only through
    [rand seed]: the same hash value gives the same sequence. *)
Theorem initPoissonSamples_spec rand seed :
  List.length (initPoissonSamples rand seed) = 17%nat /\
  Forall (fun p => vlength p <= 1) (initPoissonSamples rand seed) /\
  (forall rand' seed', rand' seed' = rand seed ->
     initPoissonSamples rand' seed' = initPoissonSamples rand seed).
Proof.
  split; [apply initPoissonSamples_length|]. split.
  - unfold initPoissonSamples. apply poisson_loop_unit.
    + unfold NUM_SAMPLES. simpl INR. lra.
    + unfold NUM_SAMPLES. simpl INR. lra.
    + unfold NUM_SAMPLES. simpl INR. lra.
  - intros rand' seed' H. unfold initPoissonSamples. rewrite H. reflexivity.
Qed.

(** ** Further properties of the shader *)

(** [findBlocker] returns [-1.0] exactly when no tap is a blocker; otherwise
    it returns the average blocker depth, which lies in [0, zReceiver). *)
Theorem findBlocker_result sm disk uv z :
  (forall x y, 0 <= sm x y) ->
  (fst (findBlocker sm disk uv z) = -1.0 /\
   forall d, In d disk -> ~ is_blocker sm uv z (searchRadius_of z) d) \/
  (0 <= fst (findBlocker sm disk uv z) < z /\
   exists d, In d disk /\ is_blocker sm uv z (searchRadius_of z) d).
Proof. apply findBlocker_cases. Qed.

Lemma findBlocker_result_witness :
  fst (findBlocker (fun _ _ => / 4) (initPoissonSamples rand_three (0, 0)) (0, 0) (/ 2))
    = -1.0 \/
  0 <= fst (findBlocker (fun _ _ => / 4) (initPoissonSamples rand_three (0, 0)) (0, 0) (/ 2))
    < / 2.
Proof.
  assert (H : forall x y : R, 0 <= (fun _ _ : R => / 4) x y) by (intros; lra).
  destruct (findBlocker_result (fun _ _ => / 4) (initPoissonSamples rand_three (0, 0))
              (0, 0) (/ 2) H) as [[E _] | [E _]]; [left | right]; exact E.
Defined.

(** [PCSS] always returns an attenuation in [0, 1]. *)
Theorem PCSS_range rand sm u v z w :
  0 <= fst (PCSS rand sm (u, v, z, w)) <= 1.
Proof.
  unfold PCSS, tbind. cbn [fst].
  destruct (Req_dec_T _ (-1.0)) as [_|_]; [cbn [fst tret]; lra|].
  unfold PCF_Filter, tbind. cbn [fst tret].
  set (disk := initPoissonSamples rand (u, v)).
  assert (Hlen : List.length disk = PCF_NUM_SAMPLES) by apply initPoissonSamples_length.
  set (fr := filterRadius_of z _).
  pose proof (pcf_loop_bounds sm (u, v) z fr (fun d => d) disk 0.0) as B1.
  set (s1 := fst (pcf_loop sm (u, v) z fr (fun d => d) disk 0.0)) in *.
  pose proof (pcf_loop_bounds sm (u, v) z fr vneg_yx disk s1) as B2.
  rewrite Hlen in B1, B2.
  assert (HN : INR PCF_NUM_SAMPLES = 17) by (unfold PCF_NUM_SAMPLES, NUM_SAMPLES; simpl; lra).
  rewrite HN in B1, B2 |- *.
  split.
  - unfold Rdiv. apply Rmult_le_pos; [lra | left; apply Rinv_0_lt_compat; lra].
  - apply (Rmult_le_reg_r (2.0 * 17)); [lra|].
    unfold Rdiv. rewrite Rmult_assoc, Rinv_l by lra. lra.
Qed.

(** For a shadow map of non-negative depths, [PCSS] samples it 17 times
    (blocker search only) when no tap is a blocker and returns [1.0], and
    51 times (blocker search and both PCF passes) otherwise. *)
Theorem PCSS_tap_count rand sm u v z w :
  (forall x y, 0 <= sm x y) ->
  (List.length (snd (PCSS rand sm (u, v, z, w))) = 17%nat /\
   fst (PCSS rand sm (u, v, z, w)) = 1 /\
   forall d, In d (initPoissonSamples rand (u, v)) ->
     ~ is_blocker sm (u, v) z (searchRadius_of z) d) \/
  (List.length (snd (PCSS rand sm (u, v, z, w))) = 51%nat /\
   exists d, In d (initPoissonSamples rand (u, v)) /\
     is_blocker sm (u, v) z (searchRadius_of z) d).
Proof.
  intros Hpos.
  assert (Hlen : List.length (initPoissonSamples rand (u, v)) = 17%nat)
    by apply initPoissonSamples_length.
  assert (Hfb : List.length (snd (findBlocker sm (initPoissonSamples rand (u, v)) (u, v) z)) = 17%nat).
  { unfold findBlocker, tbind. cbn [snd]. rewrite length_app, blocker_loop_taps, Hlen.
    destruct (fst (blocker_loop _ _ _ _ _ _ _)) as [sum n].
    destruct (Nat.eqb n 0); reflexivity. }
  unfold PCSS, tbind. cbn [fst snd]. rewrite length_app, Hfb.
  destruct (findBlocker_cases sm (initPoissonSamples rand (u, v)) (u, v) z Hpos)
    as [[E Hall] | [Hr Hex]].
  - left. rewrite E. destruct (Req_dec_T (-1.0) (-1.0)) as [_|N]; [|lra].
    unfold tret. cbn [fst snd List.length]. rewrite Nat.add_0_r.
    split; [reflexivity|]. split; [lra | exact Hall].
  - right. destruct (Req_dec_T _ (-1.0)) as [E|_]; [lra|].
    split; [|exact Hex].
    unfold PCF_Filter, tbind. cbn [snd tret]. rewrite !length_app, !pcf_loop_taps, Hlen.
    reflexivity.
Qed.

Lemma PCSS_tap_count_witness :
  List.length (snd (PCSS rand_three (fun _ _ => / 4) (0, 0, / 2, 0))) = 17%nat \/
  List.length (snd (PCSS rand_three (fun _ _ => / 4) (0, 0, / 2, 0))) = 51%nat.
Proof.
  assert (H : forall x y : R, 0 <= (fun _ _ : R => / 4) x y) by (intros; lra).
  destruct (PCSS_tap_count rand_three (fun _ _ => / 4) 0 0 (/ 2) 0 H)
    as [[E _] | [E _]]; [left | right]; exact E.
Defined.

(** When a blocker is found at a depth in (0, zReceiver), the filter radius
    is positive: the PCF pass samples a real neighbourhood. *)
Theorem filterRadius_pos z b :
  0 < b < z -> 0 < filterRadius_of z b.
Proof.
  intros [Hb Hbz]. pose proof LIGHT_SIZE_UV_pos as HL.
  unfold filterRadius_of, penumbraSize, NEAR_PLANE. replace 1.0 with 1 by lra.
  unfold Rdiv. apply Rmult_lt_0_compat; [|apply Rinv_0_lt_compat; lra].
  rewrite Rmult_1_r. apply Rmult_lt_0_compat; [|exact HL].
  apply Rmult_lt_0_compat; [lra | apply Rinv_0_lt_compat; lra].
Qed.

Lemma filterRadius_pos_witness : 0 < filterRadius_of (/ 2) (/ 4).
Proof. apply filterRadius_pos. lra. Defined.

End PCSSFacts.

(** * Properties of [BasicWorldDemo] *)

Module DemoFacts.
Import Demo.
Open Scope R_scope.

Lemma RAF_callback_trace s t g :
  trace (RAF_callback t g) s
  = RequestAnimationFrame :: step_calls s (frame_delta s t) g ++ [Render (scene_ s)].
Proof.
  destruct s as [sc w p b st ov cc pr ni ud].
  unfold frame_delta, step_calls, state_of; cbn [previousRAF_ gameStarted gameOver scene_].
  destruct pr, st, ov, g; reflexivity.
Qed.

Lemma RAF_callback_state s t g :
  run (RAF_callback t g) s
  = set_previousRAF (Some t)
      (set_gameOver (gameOver s || (gameStarted s && negb (gameOver s) && g)) s).
Proof.
  destruct s as [sc w p b st ov cc pr ni ud].
  destruct pr, st, ov, g; reflexivity.
Qed.

Lemma OnStart_fields s v :
  let s' := run (_OnStart v) s in
  gameStarted s' = true /\ gameOver s' = gameOver s /\
  currentCharacter s' = Some v /\ next_id s' = S (next_id s) /\
  player_ s' = Some (next_id s) /\
  scene_ s' = (match player_ s with
               | Some p => filter (fun a => negb (Nat.eqb (actor_id a) p)) (scene_ s)
               | None => scene_ s
               end) ++ [mkActor (next_id s) (PlayerMesh (Some v))] /\
  trace (_OnStart v) s = [HideGameMenu].
Proof.
  destruct s as [sc w p b st ov cc pr ni ud].
  destruct p; repeat split; reflexivity.
Qed.

Lemma OnReplay_fields s v :
  let s' := run (_OnReplay v) s in
  scene_ s' = baseline_scene (next_id s) (Some v) /\
  player_ s' = Some (5 + next_id s)%nat /\
  gameStarted s' = true /\ gameOver s' = false /\
  currentCharacter s' = Some v /\ next_id s' = (7 + next_id s)%nat /\
  undisposed s' = rev (map actor_id (baseline_scene (next_id s) (Some v))) ++ undisposed s /\
  trace (_OnReplay v) s = [HideGameOver].
Proof.
  destruct s as [sc w p b st ov cc pr ni ud].
  repeat split; reflexivity.
Qed.

Lemma OnCharacterSelect_state s v :
  run (_OnCharacterSelect v) s = set_currentCharacter (Some v) s.
Proof. reflexivity. Qed.

Lemma app_init_scene : scene_ app_init = baseline_scene 0 None.
Proof. reflexivity. Qed.

Lemma app_init_next_id : next_id app_init = 7%nat.
Proof. reflexivity. Qed.

Definition ids_below (s : app) : Prop :=
  Forall (fun a => (actor_id a < next_id s)%nat) (scene_ s).

Lemma ids_below_handle s i : ids_below s -> ids_below (run (handle i) s).
Proof.
  unfold ids_below. intros H. destruct i as [v|v|v|t g]; cbn [handle].
  - destruct (OnStart_fields s v) as (_ & _ & _ & Hn & _ & Hsc & _).
    rewrite Hsc, Hn. apply Forall_app. split.
    + destruct (player_ s) as [p|].
      * rewrite Forall_forall in *. intros a Ha. apply filter_In in Ha.
        specialize (H a (proj1 Ha)). lia.
      * eapply Forall_impl; [|exact H]. cbn. intros; lia.
    + constructor; [cbn; lia | constructor].
  - destruct (OnReplay_fields s v) as (Hsc & _ & _ & _ & _ & Hn & _).
    rewrite Hsc, Hn. unfold baseline_scene.
    repeat (apply Forall_cons; [cbn; lia|]). constructor.
  - rewrite OnCharacterSelect_state. exact H.
  - rewrite RAF_callback_state. exact H.
Qed.

Lemma over_started_handle s i :
  (gameOver s = true -> gameStarted s = true) ->
  gameOver (run (handle i) s) = true -> gameStarted (run (handle i) s) = true.
Proof.
  intros H. destruct i as [v|v|v|t g]; cbn [handle].
  - destruct (OnStart_fields s v) as (-> & _). reflexivity.
  - destruct (OnReplay_fields s v) as (_ & _ & -> & _). reflexivity.
  - rewrite OnCharacterSelect_state. exact H.
  - rewrite RAF_callback_state. cbn.
    destruct (gameOver s), (gameStarted s); cbn; auto.
Qed.

Lemma reachable_ids_below s : reachable s -> ids_below s.
Proof.
  induction 1 as [|s i _ IH].
  - unfold ids_below. rewrite app_init_scene, app_init_next_id. unfold baseline_scene.
    repeat (apply Forall_cons; [cbn; lia|]). constructor.
  - apply ids_below_handle, IH.
Qed.

Lemma session_playing_flags :
  gameStarted session_playing = true /\ gameOver session_playing = false.
Proof. split; reflexivity. Qed.

Lemma RAF_callback_fields s t g :
  scene_ (run (RAF_callback t g) s) = scene_ s /\
  undisposed (run (RAF_callback t g) s) = undisposed s /\
  next_id (run (RAF_callback t g) s) = next_id s /\
  gameStarted (run (RAF_callback t g) s) = gameStarted s /\
  gameOver (run (RAF_callback t g) s) = (gameOver s || (gameStarted s && negb (gameOver s) && g)).
Proof.
  rewrite RAF_callback_state.
  exact (conj eq_refl (conj eq_refl (conj eq_refl (conj eq_refl eq_refl)))).
Qed.

Lemma session_over_fields :
  state_of session_over = GameOver /\
  scene_ session_over = scene_ session_playing /\
  undisposed session_over = undisposed session_playing /\
  next_id session_over = next_id session_playing.
Proof.
  destruct session_playing_flags as (Hs & Ho).
  destruct (RAF_callback_fields session_playing 0 false) as (A1 & A2 & A3 & A4 & A5).
  destruct (RAF_callback_fields (run (RAF_callback 0 false) session_playing) 16 true)
    as (B1 & B2 & B3 & B4 & B5).
  unfold session_over, state_of.
  rewrite B1, B2, B3, B4, B5, A1, A2, A3, A4, A5, Hs, Ho.
  split; [reflexivity|]. split; [reflexivity|]. split; reflexivity.
Qed.

Lemma session_playing_scene :
  scene_ session_playing
  = [mkActor 0 DirectionalLight; mkActor 1 HemisphereLight; mkActor 2 Ground;
     mkActor 3 Sky; mkActor 4 WorldMesh; mkActor 6 BackgroundMesh;
     mkActor 7 (PlayerMesh (Some "Velociraptor"%string))].
Proof. reflexivity. Qed.

Lemma session_playing_undisposed :
  undisposed session_playing = [7; 6; 5; 4; 3; 2; 1; 0]%nat.
Proof. reflexivity. Qed.

Lemma session_playing_next_id : next_id session_playing = 8%nat.
Proof. reflexivity. Qed.

Lemma reachable_session_over : reachable session_over.
Proof.
  unfold session_over, session_playing.
  apply (reachable_step _ (AnimationFrame 16 true)).
  apply (reachable_step _ (AnimationFrame 0 false)).
  apply (reachable_step _ (ClickPlay "Velociraptor"%string)).
  apply reachable_init.
Qed.

(** ** Claims about the session state machine and the frame loop *)

(** C1 (counterexample): [_OnStart] has no guard on the session state.
    From Playing it runs its ordinary flow (the trace is just the menu
    being hidden) and changes the state (a new player object); from Idle,
    [_OnReplay] moves the session to Playing. *)
Lemma start_replay_wrong_state_accepted :
  state_of session_playing = Playing /\
  trace (_OnStart "Velociraptor"%string) session_playing = [HideGameMenu] /\
  run (_OnStart "Velociraptor"%string) session_playing <> session_playing /\
  state_of app_init = Idle /\
  state_of (run (_OnReplay "Velociraptor"%string) app_init) = Playing.
Proof.
  split; [reflexivity|]. split; [reflexivity|]. split.
  - intros H. apply (f_equal next_id) in H. cbn in H. discriminate H.
  - split; reflexivity.
Qed.

(** C1 (amended): [_OnStart] and [_OnReplay] accept every state and never
    signal an error.  [_OnStart v] hides the menu, sets the character to
    [v], replaces the player object and sets [_gameStarted] without touching
    [_gameOver] (Idle and Playing go to Playing, GameOver stays GameOver);
    [_OnReplay v] hides the game-over panel, sets the character to [v] and
    goes to Playing. *)
Theorem start_replay_unguarded s v :
  trace (_OnStart v) s = [HideGameMenu] /\
  currentCharacter (run (_OnStart v) s) = Some v /\
  player_ (run (_OnStart v) s) = Some (next_id s) /\
  state_of (run (_OnStart v) s) = (if gameOver s then GameOver else Playing) /\
  trace (_OnReplay v) s = [HideGameOver] /\
  currentCharacter (run (_OnReplay v) s) = Some v /\
  state_of (run (_OnReplay v) s) = Playing.
Proof.
  destruct (OnStart_fields s v) as (Hst & Hov & Hc & _ & Hp & _ & Htr).
  destruct (OnReplay_fields s v) as (_ & _ & Hst' & Hov' & Hc' & _ & _ & Htr').
  unfold state_of. rewrite Hst, Hov, Hst', Hov'.
  repeat split; assumption.
Qed.

(** C3: on a frame whose session state is Playing, [Step_] calls
    [player_.Update], [world_.Update] and [background_.Update] once each,
    in this order, with the frame's delta; in Idle and GameOver it calls
    none of them. *)
Theorem frame_updates_in_order s t g :
  filter is_update (trace (RAF_callback t g) s)
  = match state_of s with
    | Playing => [PlayerUpdate (frame_delta s t); WorldUpdate (frame_delta s t);
                  BackgroundUpdate (frame_delta s t)]
    | _ => []
    end.
Proof.
  rewrite RAF_callback_trace. unfold step_calls.
  destruct (state_of s), g; reflexivity.
Qed.

(** C4 (counterexample): the very first frame renders, and when Play was
    clicked before it, it also runs the collaborator updates (with a zero
    delta). *)
Lemma first_frame_does_work :
  previousRAF_ app_init = None /\
  In (Render (scene_ app_init)) (trace (RAF_callback 0 false) app_init) /\
  previousRAF_ session_playing = None /\
  In (PlayerUpdate ((5 - 5) / 1000.0)) (trace (RAF_callback 5 false) session_playing).
Proof.
  split; [reflexivity|]. split.
  - rewrite RAF_callback_trace. right. apply in_or_app. right. left. reflexivity.
  - split; [reflexivity|]. rewrite RAF_callback_trace. right. apply in_or_app. left.
    unfold step_calls, frame_delta.
    replace (state_of session_playing) with Playing by reflexivity.
    replace (previousRAF_ session_playing) with (@None R) by reflexivity.
    left. reflexivity.
Qed.

(** C4 (amended): on the first frame the timestamp is recorded as the
    previous one, so the delta is 0; the frame still schedules the next
    one, runs [Step_] with delta 0 and renders.  The following frame at
    [t2] gets the delta [(t2 - t) / 1000]. *)
Theorem first_frame_zero_delta s t g :
  previousRAF_ s = None ->
  frame_delta s t = 0 /\
  trace (RAF_callback t g) s
  = RequestAnimationFrame :: step_calls s 0 g ++ [Render (scene_ s)] /\
  previousRAF_ (run (RAF_callback t g) s) = Some t /\
  (forall t2, frame_delta (run (RAF_callback t g) s) t2 = (t2 - t) / 1000.0).
Proof.
  intros Hnone.
  assert (Hd : frame_delta s t = 0) by (unfold frame_delta; rewrite Hnone; lra).
  split; [exact Hd|]. split.
  - rewrite RAF_callback_trace, Hd. reflexivity.
  - rewrite RAF_callback_state. split; [reflexivity|]. intros t2. reflexivity.
Qed.

Lemma first_frame_zero_delta_witness :
  previousRAF_ app_init = None /\
  trace (RAF_callback 0 false) app_init
  = RequestAnimationFrame :: step_calls app_init 0 false ++ [Render (scene_ app_init)].
Proof.
  split; [reflexivity|].
  exact (proj1 (proj2 (first_frame_zero_delta app_init 0 false eq_refl))).
Defined.

(** C5 (counterexample): [scene_.clear()] only detaches the objects;
    [dispose()] is never called, so after a replay the resources of the
    previous scene's objects are still held. *)
Lemma replay_does_not_dispose :
  state_of session_over = GameOver /\
  In (mkActor 0 DirectionalLight) (scene_ session_over) /\
  In 0%nat (undisposed (run (_OnReplay "Velociraptor"%string) session_over)) /\
  ~ In 0%nat (map actor_id (scene_ (run (_OnReplay "Velociraptor"%string) session_over))).
Proof.
  destruct session_over_fields as (Hst & Hsc & Hud & Hn).
  destruct (OnReplay_fields session_over "Velociraptor"%string)
    as (Hsc' & _ & _ & _ & _ & _ & Hud' & _).
  split; [exact Hst|]. split.
  - rewrite Hsc, session_playing_scene. left. reflexivity.
  - split.
    + rewrite Hud', Hud, session_playing_undisposed. apply in_or_app. right.
      right; right; right; right; right; right; right; left. reflexivity.
    + rewrite Hsc', Hn, session_playing_next_id. unfold baseline_scene. cbn [map actor_id].
      intros H. repeat destruct H as [H|H]; try discriminate H; exact H.
Qed.

(** C5 (amended): from a reachable state, [_OnReplay v] empties the scene
    with [scene_.clear()] (no object is disposed), rebuilds from fresh
    objects the same sequence of objects as startup, with exactly one
    player object, the one [player_] refers to, bound to [v]; no object of
    the previous scene remains, [_gameOver] is cleared and the session is
    Playing. *)
Theorem replay_rebuilds_baseline s v :
  reachable s ->
  let s' := run (_OnReplay v) s in
  kinds (scene_ s') = baseline_kinds (Some v) /\
  kinds (scene_ app_init) = baseline_kinds None /\
  (forall a a', In a (scene_ s') -> In a' (scene_ s) -> actor_id a <> actor_id a') /\
  (exists p, player_ s' = Some p /\
             filter is_player_actor (scene_ s') = [mkActor p (PlayerMesh (Some v))]) /\
  (forall id, In id (undisposed s) -> In id (undisposed s')) /\
  gameOver s' = false /\ state_of s' = Playing.
Proof.
  intros Hr. pose proof (reachable_ids_below s Hr) as Hids. cbv zeta.
  destruct (OnReplay_fields s v) as (Hsc & Hp & Hst & Hov & _ & _ & Hud & _).
  rewrite Hsc. split; [reflexivity|]. split; [reflexivity|]. split.
  - intros a a' Ha Ha'. unfold ids_below in Hids. rewrite Forall_forall in Hids.
    specialize (Hids a' Ha'). unfold baseline_scene in Ha.
    repeat destruct Ha as [<-|Ha]; cbn; try lia. destruct Ha.
  - split.
    + exists (5 + next_id s)%nat. split; [exact Hp | reflexivity].
    + split.
      * intros id Hid. rewrite Hud. apply in_or_app. right. exact Hid.
      * unfold state_of. rewrite Hst, Hov. split; reflexivity.
Qed.

Lemma replay_rebuilds_baseline_witness :
  reachable session_over /\
  kinds (scene_ (run (_OnReplay "Velociraptor"%string) session_over))
  = baseline_kinds (Some "Velociraptor"%string).
Proof.
  split; [exact reachable_session_over|].
  exact (proj1 (replay_rebuilds_baseline session_over "Velociraptor"%string
                  reachable_session_over)).
Defined.

(** C8: every frame, in every session state, calls [render] exactly once,
    with the scene as it is (a frame does not change the scene). *)
Theorem render_once_every_frame s t g :
  filter is_render (trace (RAF_callback t g) s) = [Render (scene_ s)] /\
  scene_ (run (RAF_callback t g) s) = scene_ s.
Proof.
  rewrite RAF_callback_trace, RAF_callback_state. split; [|reflexivity].
  unfold step_calls. destruct (state_of s), g; reflexivity.
Qed.

(** C10: in every reachable state, [_gameOver] implies [_gameStarted]. *)
Theorem reachable_over_implies_started s :
  reachable s -> gameOver s = true -> gameStarted s = true.
Proof.
  induction 1 as [|s i _ IH].
  - discriminate.
  - apply over_started_handle, IH.
Qed.

Lemma reachable_over_implies_started_witness :
  reachable session_over /\ gameOver session_over = true /\ gameStarted session_over = true.
Proof.
  split; [exact reachable_session_over|]. split; [reflexivity|].
  exact (reachable_over_implies_started session_over reachable_session_over eq_refl).
Defined.

(** ** Further properties of the handlers *)

Ltac nodup_split H :=
  repeat (let H1 := fresh "Hd" in apply NoDup_cons_iff in H as [H1 H]; cbn [In] in H1).
Ltac clear_negs := repeat match goal with H : ~ _ |- _ => clear H end.
Ltac contra_eq :=
  match goal with
  | H : ~ _ |- False =>
      solve [apply H; repeat (first [left; reflexivity | right; reflexivity | right])]
  end.
Ltac nodup_build :=
  repeat (apply NoDup_cons;
          [cbn [In]; let H := fresh in intro H; repeat destruct H as [H|H];
           try contradiction; subst; first [contra_eq | clear_negs; lia] |]);
  apply NoDup_nil.
Ltac forall_split H :=
  repeat (let H1 := fresh "Hb" in apply Forall_cons_iff in H as [H1 H]).
Ltac forall_build :=
  clear_negs; repeat (apply Forall_cons; [lia|]); apply Forall_nil.
Ltac neq_tac := apply Nat.eqb_neq; let E := fresh in intro E; subst; contra_eq.

Lemma OnStart_undisposed s v :
  undisposed (run (_OnStart v) s) = next_id s :: undisposed s.
Proof. destruct s as [sc w [p|] b st ov cc pr ni ud]; reflexivity. Qed.

Lemma OnStart_scene_shape s v p c n0 n1 n2 n3 n4 n6 :
  player_ s = Some p ->
  NoDup [n0; n1; n2; n3; n4; p; n6] ->
  (scene_ s = [mkActor n0 DirectionalLight; mkActor n1 HemisphereLight;
               mkActor n2 Ground; mkActor n3 Sky; mkActor n4 WorldMesh;
               mkActor p (PlayerMesh c); mkActor n6 BackgroundMesh] \/
   scene_ s = [mkActor n0 DirectionalLight; mkActor n1 HemisphereLight;
               mkActor n2 Ground; mkActor n3 Sky; mkActor n4 WorldMesh;
               mkActor n6 BackgroundMesh; mkActor p (PlayerMesh c)]) ->
  scene_ (run (_OnStart v) s)
  = [mkActor n0 DirectionalLight; mkActor n1 HemisphereLight;
     mkActor n2 Ground; mkActor n3 Sky; mkActor n4 WorldMesh;
     mkActor n6 BackgroundMesh; mkActor (next_id s) (PlayerMesh (Some v))].
Proof.
  intros Hp Hnd Hsc.
  destruct (OnStart_fields s v) as (_ & _ & _ & _ & _ & E & _). rewrite E, Hp.
  nodup_split Hnd.
  assert (E0 : Nat.eqb n0 p = false) by neq_tac.
  assert (E1 : Nat.eqb n1 p = false) by neq_tac.
  assert (E2 : Nat.eqb n2 p = false) by neq_tac.
  assert (E3 : Nat.eqb n3 p = false) by neq_tac.
  assert (E4 : Nat.eqb n4 p = false) by neq_tac.
  assert (E6 : Nat.eqb n6 p = false) by neq_tac.
  destruct Hsc as [-> | ->]; cbn [filter actor_id];
    rewrite E0, E1, E2, E3, E4, E6, Nat.eqb_refl; reflexivity.
Qed.

Lemma scene_shape_handle s i : scene_shape s -> scene_shape (run (handle i) s).
Proof.
  intros (p & c & n0 & n1 & n2 & n3 & n4 & n6 & Hp & Hnd & Hlt & Hsc).
  destruct i as [v|v|v|t g]; cbn [handle].
  - destruct (OnStart_fields s v) as (_ & _ & _ & Hn & Hp' & _).
    pose proof (OnStart_scene_shape s v p c n0 n1 n2 n3 n4 n6 Hp Hnd Hsc) as Hsc'.
    exists (next_id s), (Some v), n0, n1, n2, n3, n4, n6.
    rewrite Hp', Hn, Hsc'. nodup_split Hnd. forall_split Hlt.
    split; [reflexivity|]. split; [nodup_build|]. split; [forall_build|]. right; reflexivity.
  - destruct (OnReplay_fields s v) as (Hsc' & Hp' & _ & _ & _ & Hn & _).
    exists (5 + next_id s)%nat, (Some v), (next_id s), (1 + next_id s)%nat,
      (2 + next_id s)%nat, (3 + next_id s)%nat, (4 + next_id s)%nat, (6 + next_id s)%nat.
    rewrite Hp', Hn, Hsc'.
    split; [reflexivity|]. split; [nodup_build|]. split; [forall_build|]. left; reflexivity.
  - rewrite OnCharacterSelect_state.
    exists p, c, n0, n1, n2, n3, n4, n6. auto.
  - rewrite RAF_callback_state.
    exists p, c, n0, n1, n2, n3, n4, n6. auto.
Qed.

Lemma reachable_scene_shape s : reachable s -> scene_shape s.
Proof.
  induction 1 as [|s i _ IH].
  - exists 5%nat, None, 0%nat, 1%nat, 2%nat, 3%nat, 4%nat, 6%nat.
    rewrite app_init_next_id, app_init_scene.
    split; [reflexivity|]. split; [nodup_build|]. split; [forall_build|]. left; reflexivity.
  - apply scene_shape_handle, IH.
Qed.

(** Selecting a character is overridden by a following Play or Replay. *)
(** A character picked in the dropdown ([_OnCharacterSelect]) has no
    lasting effect once Play or Replay is clicked: both read the dropdown
    again and overwrite [currentCharacter], so the app ends in the same state
    as without the selection. *)
Theorem select_overridden s v d :
  run (_OnStart d) (run (_OnCharacterSelect v) s) = run (_OnStart d) s /\
  run (_OnReplay d) (run (_OnCharacterSelect v) s) = run (_OnReplay d) s.
Proof.
  destruct s as [sc w [p|] b st ov cc pr ni ud]; split; vm_compute; reflexivity.
Qed.

(** Only a frame writes [previousRAF_], and it writes the frame's own
    timestamp; clicks and selections leave it alone.  So the delta a frame at
    [t'] passes to [Step_] is measured from the last frame, in seconds. *)
Theorem previousRAF_handle s i t' :
  previousRAF_ (run (handle i) s)
  = match i with AnimationFrame t _ => Some t | _ => previousRAF_ s end /\
  frame_delta (run (handle i) s) t'
  = match i with AnimationFrame t _ => (t' - t) / 1000.0 | _ => frame_delta s t' end.
Proof.
  assert (H : previousRAF_ (run (handle i) s)
              = match i with AnimationFrame t _ => Some t | _ => previousRAF_ s end).
  { destruct i as [v|v|v|t g]; cbn [handle].
    - destruct s as [sc w [p|] b st ov cc pr ni ud]; vm_compute; reflexivity.
    - destruct s as [sc w p b st ov cc pr ni ud]; vm_compute; reflexivity.
    - reflexivity.
    - rewrite RAF_callback_state. reflexivity. }
  split; [exact H|]. unfold frame_delta. rewrite H. destruct i; reflexivity.
Qed.

(** A frame moves the session from Playing to GameOver exactly when the
    player reports game over, and leaves Idle and GameOver unchanged; the
    game-over screen is shown exactly on that transition. *)
Theorem frame_session_transition s t g :
  state_of (run (RAF_callback t g) s)
  = match state_of s with Playing => if g then GameOver else Playing | st => st end /\
  (In ShowGameOver (trace (RAF_callback t g) s) <-> state_of s = Playing /\ g = true).
Proof.
  rewrite RAF_callback_state, RAF_callback_trace. unfold step_calls, state_of.
  cbn [gameStarted gameOver set_previousRAF set_gameOver].
  destruct (gameStarted s), (gameOver s), g; cbn [orb andb negb];
    (split; [reflexivity|]); cbn [In Datatypes.app];
    split; intros H; repeat destruct H as [H|H]; try discriminate; try easy;
    do 4 right; left; reflexivity.
Qed.

(** Outside Playing (menu or game-over screen), a frame only schedules the
    next frame, renders the scene and records its timestamp. *)
Theorem idle_frame s t g :
  state_of s <> Playing ->
  run (RAF_callback t g) s = set_previousRAF (Some t) s /\
  trace (RAF_callback t g) s = [RequestAnimationFrame; Render (scene_ s)].
Proof.
  intros Hs. rewrite RAF_callback_state, RAF_callback_trace. unfold step_calls.
  unfold state_of in *.
  destruct s as [sc w p b st ov cc pr ni ud]; cbn [gameStarted gameOver] in *.
  destruct st, ov; cbn [orb andb negb]; try (exfalso; apply Hs; reflexivity);
    split; reflexivity.
Qed.

Lemma idle_frame_witness :
  state_of app_init <> Playing /\
  trace (RAF_callback 0 false) app_init
  = [RequestAnimationFrame; Render (scene_ app_init)].
Proof.
  assert (H : state_of app_init <> Playing) by (vm_compute; discriminate).
  split; [exact H|]. apply (idle_frame app_init 0 false H).
Defined.


(** In every reachable state the scene holds seven objects with distinct
    identities: two lights, ground, sky, world, background and exactly one
    player mesh, the object [player_] designates.  The player is in the slot
    [_InitializeScene] gives it, or last once Play has rebuilt it. *)
Theorem reachable_one_player s :
  reachable s ->
  exists p c,
    player_ s = Some p /\
    filter is_player_actor (scene_ s) = [mkActor p (PlayerMesh c)] /\
    (kinds (scene_ s) = baseline_kinds c \/ kinds (scene_ s) = start_kinds c) /\
    NoDup (map actor_id (scene_ s)).
Proof.
  intros Hr. destruct (reachable_scene_shape s Hr)
    as (p & c & n0 & n1 & n2 & n3 & n4 & n6 & Hp & Hnd & _ & Hsc).
  exists p, c. split; [exact Hp|].
  destruct Hsc as [-> | ->]; split; try reflexivity.
  - split; [left; reflexivity|]. exact Hnd.
  - split; [right; reflexivity|]. nodup_split Hnd. cbn [map actor_id]. nodup_build.
Qed.

Lemma reachable_one_player_witness :
  reachable session_over /\
  exists p c, player_ session_over = Some p /\
    filter is_player_actor (scene_ session_over) = [mkActor p (PlayerMesh c)].
Proof.
  split; [exact reachable_session_over|].
  destruct (reachable_one_player session_over reachable_session_over)
    as (p & c & Hp & Hf & _).
  exists p, c. split; [exact Hp | exact Hf].
Defined.


(** In a reachable state, Play replaces only the player: every other object
    stays in the scene in order, and the only player mesh is a fresh one
    built with the dropdown's character. *)
Theorem start_keeps_scene s v :
  reachable s ->
  filter (fun a => negb (is_player_actor a)) (scene_ (run (_OnStart v) s))
  = filter (fun a => negb (is_player_actor a)) (scene_ s) /\
  filter is_player_actor (scene_ (run (_OnStart v) s))
  = [mkActor (next_id s) (PlayerMesh (Some v))].
Proof.
  intros Hr. destruct (reachable_scene_shape s Hr)
    as (p & c & n0 & n1 & n2 & n3 & n4 & n6 & Hp & Hnd & _ & Hsc).
  rewrite (OnStart_scene_shape s v p c n0 n1 n2 n3 n4 n6 Hp Hnd Hsc).
  destruct Hsc as [-> | ->]; split; reflexivity.
Qed.

Lemma start_keeps_scene_witness :
  reachable session_playing /\
  filter is_player_actor (scene_ (run (_OnStart "Triceratops"%string) session_playing))
  = [mkActor 8 (PlayerMesh (Some "Triceratops"%string))].
Proof.
  assert (Hr : reachable session_playing)
    by exact (reachable_step _ (ClickPlay "Velociraptor"%string) reachable_init).
  split; [exact Hr|].
  rewrite <- session_playing_next_id.
  exact (proj2 (start_keeps_scene session_playing "Triceratops"%string Hr)).
Defined.


(** No handler releases an object: the list of objects whose resources are
    still held only grows, by one per Play, seven per Replay and none on a
    selection or a frame. *)
Theorem handle_never_disposes s i :
  exists l, undisposed (run (handle i) s) = l ++ undisposed s /\
    List.length l = match i with ClickPlay _ => 1%nat | ClickReplay _ => 7%nat | _ => 0%nat end.
Proof.
  destruct i as [v|v|v|t g]; cbn [handle].
  - exists [next_id s]. rewrite OnStart_undisposed. split; reflexivity.
  - exists (rev (map actor_id (baseline_scene (next_id s) (Some v)))).
    destruct (OnReplay_fields s v) as (_ & _ & _ & _ & _ & _ & -> & _).
    split; reflexivity.
  - exists []. rewrite OnCharacterSelect_state. split; reflexivity.
  - exists []. rewrite RAF_callback_state. split; reflexivity.
Qed.

Lemma app_init_undisposed : undisposed app_init = [6; 5; 4; 3; 2; 1; 0]%nat.
Proof. vm_compute. reflexivity. Qed.

Lemma scene_undisposed_handle s i :
  incl (map actor_id (scene_ s)) (undisposed s) ->
  incl (map actor_id (scene_ (run (handle i) s))) (undisposed (run (handle i) s)).
Proof.
  intros H. destruct i as [v|v|v|t g]; cbn [handle].
  - destruct (OnStart_fields s v) as (_ & _ & _ & _ & _ & E & _).
    rewrite E, OnStart_undisposed, map_app. cbn [map actor_id].
    intros x Hx. apply in_app_or in Hx as [Hx|[<-|[]]]; [right|left; reflexivity].
    apply H. destruct (player_ s) as [p|]; [|exact Hx].
    apply in_map_iff in Hx as (a & <- & Ha). apply filter_In in Ha as [Ha _].
    apply in_map, Ha.
  - destruct (OnReplay_fields s v) as (E & _ & _ & _ & _ & _ & U & _).
    rewrite E, U. intros x Hx. apply in_or_app. left. apply in_rev. rewrite rev_involutive. exact Hx.
  - rewrite OnCharacterSelect_state. exact H.
  - rewrite RAF_callback_state. exact H.
Qed.

Lemma reachable_scene_undisposed s :
  reachable s -> incl (map actor_id (scene_ s)) (undisposed s).
Proof.
  induction 1 as [|s i _ IH].
  - rewrite app_init_scene, app_init_undisposed. intros x Hx.
    cbn [map actor_id baseline_scene Nat.add In] in Hx |- *. tauto.
  - apply scene_undisposed_handle, IH.
Qed.

(** In a reachable state, every object in the scene before or after an
    input holds its resources afterwards: the objects Play and Replay take out
    of the scene are never disposed. *)
Theorem removed_not_disposed s i :
  reachable s ->
  incl (map actor_id (scene_ s) ++ map actor_id (scene_ (run (handle i) s)))
       (undisposed (run (handle i) s)).
Proof.
  intros Hr. pose proof (reachable_scene_undisposed s Hr) as H.
  destruct (handle_never_disposes s i) as (l & E & _).
  apply incl_app.
  - rewrite E. intros x Hx. apply in_or_app. right. apply H, Hx.
  - apply scene_undisposed_handle, H.
Qed.

Lemma removed_not_disposed_witness :
  reachable session_playing /\
  incl (map actor_id (scene_ session_playing)
        ++ map actor_id (scene_ (run (handle (ClickReplay "Triceratops"%string)) session_playing)))
       (undisposed (run (handle (ClickReplay "Triceratops"%string)) session_playing)).
Proof.
  assert (Hr : reachable session_playing)
    by exact (reachable_step _ (ClickPlay "Velociraptor"%string) reachable_init).
  split; [exact Hr|].
  exact (removed_not_disposed session_playing (ClickReplay "Triceratops"%string) Hr).
Defined.


(** After the constructor the app is Idle, has no frame timestamp, has
    scheduled one frame, and its character is [Velociraptor]; yet the player
    object (id 5) was built with an undefined character, since
    [_Initialize] runs before the character is assigned. *)
Theorem constructor_result :
  state_of app_init = Idle /\ previousRAF_ app_init = None /\
  trace constructor blank = [RequestAnimationFrame] /\
  currentCharacter app_init = Some "Velociraptor"%string /\
  player_ app_init = Some 5%nat /\
  In (mkActor 5 (PlayerMesh None)) (scene_ app_init).
Proof.
  split; [reflexivity|]. split; [reflexivity|]. split; [reflexivity|].
  split; [reflexivity|]. split; [reflexivity|].
  rewrite app_init_scene. cbn. tauto.
Qed.

End DemoFacts.
